(** * The Interpreter example: [src/behavioural/interpreter.cpp]

    A shallow embedding of the arithmetic-expression interpreter (the
    [Expression] class hierarchy, its [interpret] methods and the [parse]
    function) together with the part of [std::istringstream] that [parse]
    relies on, followed by the properties of the parser and of evaluation. *)

From Stdlib Require Import ZArith Lia Ascii String.
From stdpp Require Import base list.

Local Open Scope Z_scope.

(** ** The C++ [int] type

    [int] is a 32-bit two's complement integer.  The language leaves
    overflow of signed arithmetic undefined; results are reduced into the
    range of [int] here, which is what the usual targets compute. *)
Module Int.

Definition min : Z := -2147483648.
Definition max : Z := 2147483647.
Definition modulus : Z := 4294967296.

Definition in_range (z : Z) : Prop := min <= z <= max.

Definition wrap (z : Z) : Z := (z - min) mod modulus + min.

Definition add (a b : Z) : Z := wrap (a + b).
Definition sub (a b : Z) : Z := wrap (a - b).

End Int.

(** ** Characters *)

Definition code (c : ascii) : Z := Z.of_N (N_of_ascii c).

(** [std::isspace] in the classic locale: space, \t, \n, \v, \f, \r. *)
Definition isspace (c : ascii) : bool :=
  (code c =? 32) || ((9 <=? code c) && (code c <=? 13)).

Definition isdigit (c : ascii) : bool :=
  (48 <=? code c) && (code c <=? 57).

Definition digit_value (c : ascii) : Z := code c - 48.

(** ** [std::istringstream]

    The part of the standard library that [parse] calls, after the
    standard's description of formatted input ([istream.formatted],
    [istream::sentry], [facet.num.get.virtuals]) in the classic locale.
    The stream is the unread part of the buffer and the two state bits
    that formatted extraction can set ([badbit] is never set here). *)
Record istringstream : Type := mk_iss {
  buf : list ascii;
  eofbit : bool;
  failbit : bool
}.

Definition open (expr : string) : istringstream :=
  mk_iss (list_ascii_of_string expr) false false.

Definition good (iss : istringstream) : bool :=
  negb (eofbit iss) && negb (failbit iss).

(** [operator bool] of a stream is [!fail()]. *)
Definition ok (iss : istringstream) : bool := negb (failbit iss).

Definition setstate (eof fail : bool) (iss : istringstream) : istringstream :=
  mk_iss (buf iss) (eofbit iss || eof) (failbit iss || fail).

Fixpoint skipws (s : list ascii) : list ascii :=
  match s with
  | c :: s' => if isspace c then skipws s' else s
  | [] => []
  end.

(** The [sentry] that opens every formatted extraction: on a stream that
    is not [good] it sets [failbit]; otherwise it discards leading white
    space and, when that reaches the end of the buffer, sets [eofbit] and
    [failbit].  The boolean tells whether extraction may proceed; when it
    may not, the extraction returns without touching its argument. *)
Definition sentry (iss : istringstream) : bool * istringstream :=
  if good iss then
    let iss1 := mk_iss (skipws (buf iss)) (eofbit iss) (failbit iss) in
    match buf iss1 with
    | [] => (false, setstate true true iss1)
    | _ :: _ => (true, iss1)
    end
  else (false, setstate false true iss).

(** [iss >> op] for a [char&]: the referenced variable is written only
    when the sentry lets the extraction proceed. *)
Definition extract_char (iss : istringstream) (op : ascii)
  : istringstream * ascii :=
  let '(go, iss1) := sentry iss in
  if go then
    match buf iss1 with
    | c :: rest => (mk_iss rest (eofbit iss1) (failbit iss1), c)
    | [] => (setstate true true iss1, op)
    end
  else (iss1, op).

(** The digits of a decimal literal, accumulated from the left. *)
Fixpoint scan_digits (s : list ascii) (result : Z) (count : nat)
  : Z * nat * list ascii :=
  match s with
  | c :: s' =>
      if isdigit c then scan_digits s' (10 * result + digit_value c) (S count)
      else (result, count, s)
  | [] => (result, count, [])
  end.

Definition scan_sign (s : list ascii) : bool * list ascii :=
  match s with
  | c :: s' =>
      if Ascii.eqb c "-" then (true, s')
      else if Ascii.eqb c "+" then (false, s')
      else (false, s)
  | [] => (false, [])
  end.

Definition at_end (s : list ascii) : bool :=
  match s with [] => true | _ :: _ => false end.

(** [num_get] for a decimal [int]: an optional sign and the longest run
    of digits.  Without a digit the value is 0 and the conversion fails;
    a value outside [int] is replaced by the nearest bound and the
    conversion fails.  The result is the value, the fail and end-of-input
    indications, and the unread characters. *)
Definition num_get (s : list ascii) : Z * bool * bool * list ascii :=
  let '(negative, s1) := scan_sign s in
  let '(result, count, rest) := scan_digits s1 0 0 in
  let v := if negative then - result else result in
  if Nat.eqb count 0 then (0, true, at_end rest, rest)
  else if v <? Int.min then (Int.min, true, at_end rest, rest)
  else if Int.max <? v then (Int.max, true, at_end rest, rest)
  else (v, false, at_end rest, rest).

(** [iss >> num] for an [int&]: when the sentry refuses, [num] keeps the
    value it had; otherwise [num] is assigned what [num_get] delivers,
    which is 0 when there is no digit to convert. *)
Definition extract_int (iss : istringstream) (num : Z)
  : istringstream * Z :=
  let '(go, iss1) := sentry iss in
  if go then
    let '(v, fail, eof, rest) := num_get (buf iss1) in
    (setstate eof fail (mk_iss rest (eofbit iss1) (failbit iss1)), v)
  else (iss1, num).

(** ** The expression tree *)

Inductive Expression : Type :=
| NumberExpression (number : Z)
| AddExpression (left right : Expression)
| SubtractExpression (left right : Expression).

Fixpoint interpret (e : Expression) : Z :=
  match e with
  | NumberExpression number => number
  | AddExpression l r => Int.add (interpret l) (interpret r)
  | SubtractExpression l r => Int.sub (interpret l) (interpret r)
  end.

(** ** Evaluation with the tree as explicit state

    [interpret] is a [const] member function.  The pair below is the
    value it returns and the object as the call leaves it. *)
Fixpoint interpret_st (e : Expression) : Z * Expression :=
  match e with
  | NumberExpression number => (number, NumberExpression number)
  | AddExpression l r =>
      let '(a, l1) := interpret_st l in
      let '(b, r1) := interpret_st r in
      (Int.add a b, AddExpression l1 r1)
  | SubtractExpression l r =>
      let '(a, l1) := interpret_st l in
      let '(b, r1) := interpret_st r in
      (Int.sub a b, SubtractExpression l1 r1)
  end.

(** [n] calls in a row on the same object: the values returned and the
    object in the end. *)
Fixpoint interpret_times (n : nat) (e : Expression) : list Z * Expression :=
  match n with
  | O => ([], e)
  | S n' =>
      let '(v, e1) := interpret_st e in
      let '(vs, e2) := interpret_times n' e1 in
      (v :: vs, e2)
  end.

(** Evaluation with a bound on the nesting of calls: [None] when a call
    would exceed the bound. *)
Fixpoint interpret_within (bound : nat) (e : Expression) : option Z :=
  match bound with
  | O => None
  | S bound' =>
      match e with
      | NumberExpression number => Some number
      | AddExpression l r =>
          match interpret_within bound' l, interpret_within bound' r with
          | Some a, Some b => Some (Int.add a b)
          | _, _ => None
          end
      | SubtractExpression l r =>
          match interpret_within bound' l, interpret_within bound' r with
          | Some a, Some b => Some (Int.sub a b)
          | _, _ => None
          end
      end
  end.

(** ** [parse]

    The locals [num] and [op] are declared without an initialiser; their
    indeterminate initial contents are the parameters [num0] and [op0].
    The vectors [terms] and [ops] are lists, [push_back] appends at the
    end, and each element of [terms] is moved out of at most once. *)

(** The [while (iss >> op)] loop.  Every round that continues has taken a
    character from the buffer; [fuel] bounds the number of rounds. *)
Fixpoint read_terms (fuel : nat) (iss : istringstream) (num : Z) (op : ascii)
    (terms : list Expression) (ops : list ascii)
  : option (list Expression * list ascii) :=
  match fuel with
  | O => None
  | S fuel' =>
      let '(iss1, op1) := extract_char iss op in
      if ok iss1 then
        let ops1 := ops ++ [op1] in
        let '(iss2, num1) := extract_int iss1 num in
        let terms1 := terms ++ [NumberExpression num1] in
        read_terms fuel' iss2 num1 op1 terms1 ops1
      else Some (terms, ops)
  end.

(** The [for] loop that builds the tree: [todo] rounds remain and [i] is
    the loop index.  An index outside a vector yields [None]. *)
Fixpoint build (terms : list Expression) (ops : list ascii) (todo : nat)
    (i : nat) (result : Expression) : option Expression :=
  match todo with
  | O => Some result
  | S todo' =>
      match ops !! i with
      | None => None
      | Some o =>
          if Ascii.eqb o "+" then
            match terms !! (i + 1)%nat with
            | Some t => build terms ops todo' (S i) (AddExpression result t)
            | None => None
            end
          else if Ascii.eqb o "-" then
            match terms !! (i + 1)%nat with
            | Some t => build terms ops todo' (S i) (SubtractExpression result t)
            | None => None
            end
          else build terms ops todo' (S i) result
      end
  end.

Definition parse (num0 : Z) (op0 : ascii) (expr : string)
  : option Expression :=
  let iss := open expr in
  let '(iss1, num) := extract_int iss num0 in
  let terms := [NumberExpression num] in
  match read_terms (S (String.length expr)) iss1 num op0 terms [] with
  | None => None
  | Some (terms1, ops) =>
      match terms1 !! 0%nat with
      | None => None
      | Some result => build terms1 ops (length ops) 0 result
      end
  end.

(** What [parse] does once the reading loop has ended. *)
Definition finish (read : option (list Expression * list ascii))
  : option Expression :=
  match read with
  | None => None
  | Some (terms1, ops) =>
      match terms1 !! 0%nat with
      | None => None
      | Some result => build terms1 ops (length ops) 0 result
      end
  end.

(** The stream right after a literal that is followed by the text [s]. *)
Definition state_at (s : list ascii) : istringstream :=
  mk_iss s (at_end s) false.

(** ** Input sentences

    The texts the parser is meant for: an integer literal followed by any
    number of (operator, integer literal) pairs, separated by optional
    white space.  The relations below tie a text to the number and the
    pairs that it shows. *)

Definition space (c : ascii) : Prop := isspace c = true.
Definition digit (c : ascii) : Prop := isdigit c = true.

Definition digits_value (ds : list ascii) : Z :=
  fold_left (fun a c => 10 * a + digit_value c) ds 0.

(** An optional sign and one or more digits, denoting a value of [int]. *)
Inductive int_literal : list ascii -> Z -> Prop :=
| lit_plain ds :
    ds <> [] -> Forall digit ds -> Int.in_range (digits_value ds) ->
    int_literal ds (digits_value ds)
| lit_plus ds :
    ds <> [] -> Forall digit ds -> Int.in_range (digits_value ds) ->
    int_literal ("+"%char :: ds) (digits_value ds)
| lit_minus ds :
    ds <> [] -> Forall digit ds -> Int.in_range (- digits_value ds) ->
    int_literal ("-"%char :: ds) (- digits_value ds).

(** The text does not continue the digits of a literal before it. *)
Definition no_digit_ahead (s : list ascii) : Prop :=
  match s with
  | c :: _ => isdigit c = false
  | [] => True
  end.

(** [tail r s items]: [s] shows the pairs [items] and then the text [r].
    An operator is any one character that is not white space; one that
    directly follows a literal is not a digit. *)
Inductive tail (r : list ascii) : list ascii -> list (ascii * Z) -> Prop :=
| tail_nil : tail r r []
| tail_item ws1 op ws2 lit v s items :
    Forall space ws1 -> isspace op = false ->
    (ws1 = [] -> isdigit op = false) ->
    Forall space ws2 -> int_literal lit v ->
    tail r s items ->
    tail r (ws1 ++ op :: ws2 ++ lit ++ s) ((op, v) :: items).

(** [phrase r s n0 items]: [s] shows the number [n0], the pairs [items]
    and then the text [r]. *)
Inductive phrase (r : list ascii) : list ascii -> Z -> list (ascii * Z) -> Prop :=
| phrase_intro ws lit n0 s items :
    Forall space ws -> int_literal lit n0 -> tail r s items ->
    phrase r (ws ++ lit ++ s) n0 items.

(** A complete sentence ends with white space only. *)
Definition sentence (s : list ascii) (n0 : Z) (items : list (ascii * Z)) : Prop :=
  exists r, Forall space r /\ phrase r s n0 items.

Definition plus_or_minus (c : ascii) : Prop := c = "+"%char \/ c = "-"%char.

(** The grammar [NUMBER (('+'|'-') NUMBER)*]. *)
Definition well_formed (s : list ascii) (n0 : Z) (items : list (ascii * Z)) : Prop :=
  sentence s n0 items /\ Forall (fun it => plus_or_minus (fst it)) items.

(** The variable [num] after the pairs [items] have been read. *)
Definition current_num (num : Z) (items : list (ascii * Z)) : Z :=
  fold_left (fun _ it => it.2) items num.

Definition current_op (op : ascii) (items : list (ascii * Z)) : ascii :=
  fold_left (fun _ it => it.1) items op.

Definition number_of (it : ascii * Z) : Expression := NumberExpression it.2.

(** A token that is no number: a character that is neither white space
    nor a digit, and no digit behind it when it is a sign. *)
Definition not_number (junk : list ascii) : Prop :=
  exists j rest, junk = j :: rest /\ isspace j = false /\ isdigit j = false /\
                 (plus_or_minus j -> no_digit_ahead rest).

(** ** What a sentence denotes *)

(** The node that the tree-building loop makes of the accumulator and
    one pair. *)
Definition attach (acc : Expression) (it : ascii * Z) : Expression :=
  if Ascii.eqb (fst it) "+" then AddExpression acc (NumberExpression (snd it))
  else if Ascii.eqb (fst it) "-" then
    SubtractExpression acc (NumberExpression (snd it))
  else acc.

Definition left_tree (n0 : Z) (items : list (ascii * Z)) : Expression :=
  fold_left attach items (NumberExpression n0).

(** The left-to-right fold ((N0 op1 N1) op2 N2) ..., in [int] arithmetic
    and over the integers. *)
Definition apply_int (acc : Z) (it : ascii * Z) : Z :=
  if Ascii.eqb (fst it) "+" then Int.add acc (snd it)
  else if Ascii.eqb (fst it) "-" then Int.sub acc (snd it)
  else acc.

Definition apply_Z (acc : Z) (it : ascii * Z) : Z :=
  if Ascii.eqb (fst it) "+" then acc + snd it
  else if Ascii.eqb (fst it) "-" then acc - snd it
  else acc.

Definition left_fold_int (n0 : Z) (items : list (ascii * Z)) : Z :=
  fold_left apply_int items n0.

Definition left_fold_Z (n0 : Z) (items : list (ascii * Z)) : Z :=
  fold_left apply_Z items n0.

(** ** Shape of trees *)

Fixpoint count_numbers (e : Expression) : nat :=
  match e with
  | NumberExpression _ => 1
  | AddExpression l r | SubtractExpression l r =>
      (count_numbers l + count_numbers r)%nat
  end.

Fixpoint count_internal (e : Expression) : nat :=
  match e with
  | NumberExpression _ => 0
  | AddExpression l r | SubtractExpression l r =>
      S (count_internal l + count_internal r)
  end.

Fixpoint depth (e : Expression) : nat :=
  match e with
  | NumberExpression _ => 1
  | AddExpression l r | SubtractExpression l r =>
      S (Nat.max (depth l) (depth r))
  end.

Definition is_number (e : Expression) : bool :=
  match e with NumberExpression _ => true | _ => false end.

(** Every right operand is a number: the tree leans to the left. *)
Fixpoint left_associative (e : Expression) : bool :=
  match e with
  | NumberExpression _ => true
  | AddExpression l r | SubtractExpression l r =>
      left_associative l && is_number r
  end.

(** The numbers of a tree from left to right. *)
Fixpoint numbers (e : Expression) : list Z :=
  match e with
  | NumberExpression n => [n]
  | AddExpression l r | SubtractExpression l r => numbers l ++ numbers r
  end.

(** The subtree reached by [n] steps to the left operand. *)
Fixpoint descend_left (n : nat) (e : Expression) : option Expression :=
  match n with
  | O => Some e
  | S n' =>
      match e with
      | NumberExpression _ => None
      | AddExpression l _ | SubtractExpression l _ => descend_left n' l
      end
  end.

(** ** Literals of any size, and sums

    Notions for the behaviour of [parse] beyond its grammar. *)

Definition nonspace (c : ascii) : Prop := isspace c = false.

(** An optional sign and one or more digits, whatever their value. *)
Inductive wide_literal : list ascii -> Z -> Prop :=
| wide_plain ds :
    ds <> [] -> Forall digit ds -> wide_literal ds (digits_value ds)
| wide_plus ds :
    ds <> [] -> Forall digit ds ->
    wide_literal ("+"%char :: ds) (digits_value ds)
| wide_minus ds :
    ds <> [] -> Forall digit ds ->
    wide_literal ("-"%char :: ds) (- digits_value ds).

(** The nearest value of [int]. *)
Definition clamp (v : Z) : Z :=
  if v <? Int.min then Int.min else if Int.max <? v then Int.max else v.

(** What a pair adds to the value of a sentence. *)
Definition signed (it : ascii * Z) : Z :=
  if Ascii.eqb it.1 "+" then it.2
  else if Ascii.eqb it.1 "-" then - it.2
  else 0.

Definition signed_sum (items : list (ascii * Z)) : Z :=
  foldr (fun it acc => signed it + acc) 0 items.

(** * Properties *)

(** ** Characters *)

Ltac char_cases :=
  repeat match goal with
    | |- context [Z.eqb ?a ?b] => destruct (Z.eqb_spec a b)
    | |- context [Z.leb ?a ?b] => destruct (Z.leb_spec a b)
    | H : context [Z.eqb ?a ?b] |- _ => destruct (Z.eqb_spec a b)
    | H : context [Z.leb ?a ?b] |- _ => destruct (Z.leb_spec a b)
    end;
  simpl in *; try congruence; try lia.

Lemma digit_not_space c : isdigit c = true -> isspace c = false.
Proof. unfold isdigit, isspace. intros H. char_cases. Qed.

Lemma digit_not_minus c : isdigit c = true -> Ascii.eqb c "-" = false.
Proof.
  intros H. destruct (Ascii.eqb_spec c "-") as [-> | _]; [discriminate H | done].
Qed.

Lemma digit_not_plus c : isdigit c = true -> Ascii.eqb c "+" = false.
Proof.
  intros H. destruct (Ascii.eqb_spec c "+") as [-> | _]; [discriminate H | done].
Qed.

(** ** White space and digits *)

Lemma skipws_spaces ws s : Forall space ws -> skipws (ws ++ s) = skipws s.
Proof.
  induction 1 as [| c ws Hc _ IH]; [done |].
  simpl. unfold space in Hc. by rewrite Hc.
Qed.

Lemma skipws_all ws : Forall space ws -> skipws ws = [].
Proof.
  intros H. rewrite <- (app_nil_r ws). by rewrite skipws_spaces.
Qed.

Lemma skipws_length s : (length (skipws s) <= length s)%nat.
Proof.
  induction s as [| c s IH]; simpl; [lia |].
  destruct (isspace c); simpl; lia.
Qed.

Lemma scan_digits_run ds s acc n :
  Forall digit ds -> no_digit_ahead s ->
  scan_digits (ds ++ s) acc n =
    (fold_left (fun a c => 10 * a + digit_value c) ds acc,
     (n + length ds)%nat, s).
Proof.
  intros Hds Hs. revert acc n.
  induction Hds as [| c ds Hc _ IH]; intros acc n; simpl.
  - rewrite Nat.add_0_r. destruct s as [| c s]; [done |].
    simpl in *. by rewrite Hs.
  - unfold digit in Hc. rewrite Hc, IH. do 2 f_equal. lia.
Qed.

Lemma scan_digits_rest s acc n :
  (length (scan_digits s acc n).2 <= length s)%nat.
Proof.
  revert acc n. induction s as [| c s IH]; intros acc n; simpl; [lia |].
  destruct (isdigit c); simpl; [| lia].
  specialize (IH (10 * acc + digit_value c) (S n)). lia.
Qed.

Lemma scan_sign_rest s : (length (scan_sign s).2 <= length s)%nat.
Proof.
  destruct s as [| c s]; simpl; [lia |].
  destruct (Ascii.eqb c "-"); simpl; [lia |].
  destruct (Ascii.eqb c "+"); simpl; lia.
Qed.

(** ** Literals *)

Lemma literal_head lit v :
  int_literal lit v -> exists c rest, lit = c :: rest /\ isspace c = false.
Proof.
  destruct 1 as [ds Hne Hds _ | ds _ _ _ | ds _ _ _]; [| by eauto ..].
  destruct Hds as [| c ds Hc _]; [done |].
  exists c, ds. split; [done | by apply digit_not_space].
Qed.

Lemma literal_range lit v : int_literal lit v -> Int.in_range v.
Proof. by destruct 1. Qed.

Lemma num_get_digits ds s (negative : bool) :
  ds <> [] -> Forall digit ds -> no_digit_ahead s ->
  Int.in_range (if negative then - digits_value ds else digits_value ds) ->
  (let '(result, count, rest) := scan_digits (ds ++ s) 0 0 in
   let v := if negative then - result else result in
   if Nat.eqb count 0 then (0, true, at_end rest, rest)
   else if v <? Int.min then (Int.min, true, at_end rest, rest)
   else if Int.max <? v then (Int.max, true, at_end rest, rest)
   else (v, false, at_end rest, rest)) =
  ((if negative then - digits_value ds else digits_value ds),
   false, at_end s, s).
Proof.
  intros Hne Hds Hs [Hlo Hhi].
  rewrite scan_digits_run by done. fold (digits_value ds).
  destruct ds as [| d ds]; [done |]. simpl length. simpl Nat.eqb.
  cbv zeta.
  set (v := if negative then - digits_value (d :: ds)
            else digits_value (d :: ds)) in *.
  destruct (Z.ltb_spec v Int.min); [lia |].
  destruct (Z.ltb_spec Int.max v); [lia | done].
Qed.

Lemma num_get_literal lit v s :
  int_literal lit v -> no_digit_ahead s ->
  num_get (lit ++ s) = (v, false, at_end s, s).
Proof.
  intros Hlit Hs. unfold num_get.
  destruct Hlit as [ds Hne Hds Hr | ds Hne Hds Hr | ds Hne Hds Hr].
  - destruct Hds as [| c ds Hc Hds]; [done |].
    simpl app. unfold scan_sign.
    rewrite (digit_not_minus c Hc), (digit_not_plus c Hc).
    change (c :: ds ++ s) with ((c :: ds) ++ s).
    apply (num_get_digits (c :: ds) s false); auto.
  - simpl app. unfold scan_sign. simpl Ascii.eqb.
    apply (num_get_digits ds s false); auto.
  - simpl app. unfold scan_sign. simpl Ascii.eqb.
    apply (num_get_digits ds s true); auto.
Qed.

(** ** Extraction from the stream *)

Lemma at_end_middle (ws : list ascii) c s : at_end (ws ++ c :: s) = false.
Proof. by destruct ws. Qed.

Lemma extract_int_literal ws lit v s num :
  Forall space ws -> int_literal lit v -> no_digit_ahead s ->
  extract_int (mk_iss (ws ++ lit ++ s) false false) num = (state_at s, v).
Proof.
  intros Hws Hlit Hs.
  destruct (literal_head lit v Hlit) as (c & rest & -> & Hc).
  unfold extract_int, sentry, good. simpl.
  rewrite skipws_spaces by done. simpl. rewrite Hc. simpl.
  change (c :: rest ++ s) with ((c :: rest) ++ s).
  by rewrite (num_get_literal _ v s Hlit Hs).
Qed.

Lemma extract_char_op ws c s op :
  Forall space ws -> isspace c = false ->
  extract_char (state_at (ws ++ c :: s)) op = (mk_iss s false false, c).
Proof.
  intros Hws Hc. unfold state_at. rewrite at_end_middle.
  unfold extract_char, sentry, good. simpl.
  rewrite skipws_spaces by done. simpl. by rewrite Hc.
Qed.

(** At the end of the input the sentry refuses and the variable keeps
    its value. *)
Lemma extract_int_end ws num :
  Forall space ws ->
  extract_int (mk_iss ws false false) num = (mk_iss [] true true, num).
Proof.
  intros Hws. unfold extract_int, sentry, good. simpl.
  by rewrite skipws_all.
Qed.

Lemma extract_char_end ws op :
  Forall space ws ->
  extract_char (state_at ws) op = (mk_iss [] true true, op).
Proof.
  intros Hws. unfold extract_char, sentry, good, state_at. simpl.
  destruct ws as [| c ws]; [done |]. simpl negb. simpl andb. cbv iota.
  cbv zeta. simpl buf. by rewrite skipws_all.
Qed.

(** A stream that has failed stays failed and nothing is written. *)
Lemma extract_char_failed iss op :
  failbit iss = true -> extract_char iss op = (iss, op).
Proof.
  destruct iss as [b e f]. simpl. intros ->.
  unfold extract_char, sentry, good, setstate. simpl.
  by rewrite andb_false_r, orb_false_r.
Qed.

Lemma sentry_buf iss :
  (length (buf (sentry iss).2) <= length (buf iss))%nat.
Proof.
  unfold sentry. destruct (good iss); simpl; [| lia].
  pose proof (skipws_length (buf iss)).
  destruct (skipws (buf iss)); simpl in *; lia.
Qed.

Lemma sentry_refuses iss :
  (sentry iss).1 = false -> failbit (sentry iss).2 = true.
Proof.
  unfold sentry, good. destruct iss as [b [] []]; simpl; try done.
  by destruct (skipws b).
Qed.

(** A successful [iss >> op] takes a character from the buffer. *)
Lemma extract_char_buf iss op :
  ok (extract_char iss op).1 = true ->
  (length (buf (extract_char iss op).1) < length (buf iss))%nat.
Proof.
  unfold extract_char.
  pose proof (sentry_buf iss) as Hlen.
  pose proof (sentry_refuses iss) as Href.
  destruct (sentry iss) as [[] iss1]; simpl in *.
  - destruct (buf iss1) as [| c rest] eqn:E; simpl.
    + unfold ok. simpl. by rewrite orb_true_r.
    + intros _. simpl in Hlen. lia.
  - unfold ok. by rewrite Href.
Qed.

Lemma num_get_rest s : (length (num_get s).2 <= length s)%nat.
Proof.
  unfold num_get.
  pose proof (scan_sign_rest s) as H1.
  destruct (scan_sign s) as [negative s1]. simpl in H1.
  pose proof (scan_digits_rest s1 0 0) as H2.
  destruct (scan_digits s1 0 0) as [[result count] rest]. simpl in H2.
  repeat case_match; simpl; lia.
Qed.

Lemma extract_int_buf iss num :
  (length (buf (extract_int iss num).1) <= length (buf iss))%nat.
Proof.
  unfold extract_int.
  pose proof (sentry_buf iss) as Hlen.
  destruct (sentry iss) as [[] iss1]; simpl in *; [| lia].
  pose proof (num_get_rest (buf iss1)) as H.
  destruct (num_get (buf iss1)) as [[[v fail] eof] rest]. simpl in *. lia.
Qed.

(** ** The reading loop *)

Lemma read_terms_S fuel iss num op terms ops :
  read_terms (S fuel) iss num op terms ops =
    let '(iss1, op1) := extract_char iss op in
    if ok iss1 then
      let '(iss2, num1) := extract_int iss1 num in
      read_terms fuel iss2 num1 op1 (terms ++ [NumberExpression num1])
        (ops ++ [op1])
    else Some (terms, ops).
Proof. done. Qed.

(** Fuel beyond the length of the buffer is never used. *)
Lemma read_terms_fuel fuel : forall fuel' iss num op terms ops,
  (length (buf iss) < fuel)%nat -> (length (buf iss) < fuel')%nat ->
  read_terms fuel iss num op terms ops =
  read_terms fuel' iss num op terms ops.
Proof.
  induction fuel as [| fuel IH]; intros fuel' iss num op terms ops H H';
    [lia |].
  destruct fuel' as [| fuel']; [lia |].
  rewrite !read_terms_S.
  pose proof (extract_char_buf iss op) as Hc.
  destruct (extract_char iss op) as [iss1 op1]. simpl in Hc.
  destruct (ok iss1); [| done].
  pose proof (extract_int_buf iss1 num) as Hi.
  destruct (extract_int iss1 num) as [iss2 num1]. simpl in Hi.
  specialize (Hc eq_refl). apply IH; lia.
Qed.

(** With that much fuel the loop ends, and it has pushed as many terms
    as operators. *)
Lemma read_terms_total fuel : forall iss num op terms ops,
  (length (buf iss) < fuel)%nat ->
  exists terms' ops',
    read_terms fuel iss num op terms ops = Some (terms', ops') /\
    (length terms' + length ops = length terms + length ops')%nat.
Proof.
  induction fuel as [| fuel IH]; intros iss num op terms ops H; [lia |].
  rewrite read_terms_S.
  pose proof (extract_char_buf iss op) as Hc.
  destruct (extract_char iss op) as [iss1 op1]. simpl in Hc.
  destruct (ok iss1); [| by eauto].
  pose proof (extract_int_buf iss1 num) as Hi.
  destruct (extract_int iss1 num) as [iss2 num1]. simpl in Hi.
  specialize (Hc eq_refl).
  destruct (IH iss2 num1 op1 (terms ++ [NumberExpression num1])
              (ops ++ [op1])) as (terms' & ops' & -> & Hlen); [lia |].
  exists terms', ops'. split; [done |].
  rewrite !length_app in Hlen. simpl in Hlen. lia.
Qed.

Lemma read_terms_stop fuel ws num op terms ops :
  Forall space ws ->
  read_terms (S fuel) (state_at ws) num op terms ops = Some (terms, ops).
Proof.
  intros Hws. rewrite read_terms_S. by rewrite extract_char_end.
Qed.

Lemma tail_no_digit r s items :
  tail r s items -> no_digit_ahead r -> no_digit_ahead s.
Proof.
  destruct 1 as [| ws1 c ws2 lit v s items Hws1 Hc Hd _ _ _]; [done |].
  intros _. destruct Hws1 as [| w ws1 Hw _]; simpl.
  - by apply Hd.
  - unfold space in Hw. unfold isspace, isdigit in *. char_cases.
Qed.

Lemma tail_length r s items :
  tail r s items -> (length r + length items <= length s)%nat.
Proof.
  induction 1 as [| ws1 c ws2 lit v s items _ _ _ _ _ _ IH]; simpl; [lia |].
  rewrite !length_app. simpl. rewrite !length_app. lia.
Qed.

(** Reading the pairs of a tail: one round of the loop for each. *)
Lemma read_terms_tail r s items :
  tail r s items -> no_digit_ahead r ->
  forall fuel num op terms ops,
    read_terms (length items + fuel) (state_at s) num op terms ops =
    read_terms fuel (state_at r) (current_num num items)
      (current_op op items) (terms ++ (number_of <$> items))
      (ops ++ (fst <$> items)).
Proof.
  intros Ht Hr.
  induction Ht as [| ws1 c ws2 lit v s items Hws1 Hc Hd Hws2 Hlit Ht IH];
    intros fuel num op terms ops.
  - simpl. by rewrite !app_nil_r.
  - simpl length. simpl Nat.add. rewrite read_terms_S.
    rewrite extract_char_op by done. simpl ok. cbv iota.
    rewrite (extract_int_literal ws2 lit v s num Hws2 Hlit
               (tail_no_digit r s items Ht Hr)).
    rewrite IH. simpl. by rewrite <- !app_assoc.
Qed.

Lemma read_terms_failed fuel iss num op terms ops :
  failbit iss = true ->
  read_terms (S fuel) iss num op terms ops = Some (terms, ops).
Proof.
  intros H. rewrite read_terms_S, extract_char_failed by done.
  unfold ok. by rewrite H.
Qed.

(** ** The tree-building loop *)

Lemma build_S terms ops todo i result :
  build terms ops (S todo) i result =
    match ops !! i with
    | None => None
    | Some o =>
        if Ascii.eqb o "+" then
          match terms !! (i + 1)%nat with
          | Some t => build terms ops todo (S i) (AddExpression result t)
          | None => None
          end
        else if Ascii.eqb o "-" then
          match terms !! (i + 1)%nat with
          | Some t => build terms ops todo (S i) (SubtractExpression result t)
          | None => None
          end
        else build terms ops todo (S i) result
    end.
Proof. done. Qed.

Lemma build_items n0 todo : forall seen acc,
  build (NumberExpression n0 :: (number_of <$> (seen ++ todo)))
        (fst <$> (seen ++ todo)) (length todo) (length seen) acc =
  Some (fold_left attach todo acc).
Proof.
  induction todo as [| [o v] todo IH]; intros seen acc; [done |].
  simpl length. rewrite build_S.
  assert (Hop : (fst <$> (seen ++ (o, v) :: todo)) !! length seen = Some o).
  { rewrite fmap_app, fmap_cons. apply list_lookup_middle.
    by rewrite length_fmap. }
  assert (Hterm : (NumberExpression n0 ::
                     (number_of <$> (seen ++ (o, v) :: todo)))
                  !! (length seen + 1)%nat = Some (NumberExpression v)).
  { rewrite Nat.add_1_r. simpl. rewrite fmap_app, fmap_cons.
    apply list_lookup_middle. by rewrite length_fmap. }
  rewrite Hop, Hterm.
  specialize (IH (seen ++ [(o, v)])).
  rewrite <- app_assoc, length_app, Nat.add_1_r in IH. simpl in IH.
  simpl fold_left. unfold attach at 2. simpl fst. simpl snd.
  destruct (Ascii.eqb o "+"); [apply IH |].
  destruct (Ascii.eqb o "-"); apply IH.
Qed.

Lemma build_total terms ops todo : forall i result,
  (i + todo = length ops)%nat -> length terms = S (length ops) ->
  is_Some (build terms ops todo i result).
Proof.
  induction todo as [| todo IH]; intros i result Hi Hlen; [by eexists |].
  rewrite build_S.
  destruct (lookup_lt_is_Some_2 ops i) as [o ->]; [lia |].
  destruct (lookup_lt_is_Some_2 terms (i + 1)%nat) as [t ->]; [lia |].
  destruct (Ascii.eqb o "+"); [apply IH; lia |].
  destruct (Ascii.eqb o "-"); apply IH; lia.
Qed.

(** ** [parse] *)

Lemma parse_unfold num0 op0 expr :
  parse num0 op0 expr =
    let '(iss1, num) := extract_int (open expr) num0 in
    finish (read_terms (S (String.length expr)) iss1 num op0
              [NumberExpression num] []).
Proof. unfold parse. by destruct (extract_int (open expr) num0). Qed.

Lemma finish_items n0 items :
  finish (Some (NumberExpression n0 :: (number_of <$> items), fst <$> items))
  = Some (left_tree n0 items).
Proof.
  simpl. rewrite length_fmap.
  apply (build_items n0 items [] (NumberExpression n0)).
Qed.

Lemma length_list_ascii_of_string expr :
  length (list_ascii_of_string expr) = String.length expr.
Proof. induction expr as [| c expr IH]; simpl; congruence. Qed.

(** [parse] always returns a tree. *)
Lemma parse_total num0 op0 expr : is_Some (parse num0 op0 expr).
Proof.
  rewrite parse_unfold.
  pose proof (extract_int_buf (open expr) num0) as Hlen.
  destruct (extract_int (open expr) num0) as [iss1 num]. simpl in Hlen.
  rewrite length_list_ascii_of_string in Hlen.
  destruct (read_terms_total (S (String.length expr)) iss1 num op0
              [NumberExpression num] []) as (terms & ops & -> & Hl); [lia |].
  simpl in Hl. simpl.
  destruct terms as [| t terms]; simpl in *; [lia |].
  apply build_total; simpl; lia.
Qed.

(** A phrase is read up to the text [r] that follows it. *)
Lemma parse_phrase num0 op0 expr r n0 items fuel :
  phrase r (list_ascii_of_string expr) n0 items -> no_digit_ahead r ->
  (length r < fuel)%nat ->
  parse num0 op0 expr =
    finish (read_terms fuel (state_at r) (current_num n0 items)
              (current_op op0 items)
              (NumberExpression n0 :: (number_of <$> items))
              (fst <$> items)).
Proof.
  intros Hp Hr Hfuel. rewrite parse_unfold. unfold open.
  pose proof (length_list_ascii_of_string expr) as Hlen.
  destruct Hp as [ws lit n0 s items Hws Hlit Ht].
  rewrite (extract_int_literal ws lit n0 s num0 Hws Hlit
             (tail_no_digit r s items Ht Hr)).
  pose proof (tail_length r s items Ht) as Hts.
  rewrite !length_app in Hlen.
  rewrite (read_terms_fuel _ (length items + S (length s))%nat)
    by (simpl; lia).
  rewrite (read_terms_tail r s items Ht Hr).
  by rewrite (read_terms_fuel _ fuel) by (simpl; lia).
Qed.

(** A complete sentence is parsed into the tree that folds its pairs
    onto its first number from the left. *)
Lemma parse_sentence num0 op0 expr n0 items :
  sentence (list_ascii_of_string expr) n0 items ->
  parse num0 op0 expr = Some (left_tree n0 items).
Proof.
  intros (r & Hr & Hp).
  assert (Hnd : no_digit_ahead r).
  { destruct Hr as [| c r Hc _]; [done |].
    simpl. unfold space in Hc. unfold isspace, isdigit in *. char_cases. }
  rewrite (parse_phrase num0 op0 expr r n0 items (S (length r)) Hp Hnd)
    by lia.
  rewrite read_terms_stop by done. apply finish_items.
Qed.

(** ** Malformed endings *)

Lemma last_round fuel c ws1 iss2 num num1 op terms ops s :
  Forall space ws1 -> isspace c = false ->
  extract_int (mk_iss s false false) num = (iss2, num1) ->
  failbit iss2 = true ->
  read_terms (S (S fuel)) (state_at (ws1 ++ c :: s)) num op terms ops =
    Some (terms ++ [NumberExpression num1], ops ++ [c]).
Proof.
  intros Hws1 Hc Hint Hfail.
  rewrite read_terms_S, extract_char_op by done. simpl ok. cbv iota.
  rewrite Hint. by apply read_terms_failed.
Qed.

Lemma finish_snoc n0 items c v :
  finish (Some ((NumberExpression n0 :: (number_of <$> items))
                  ++ [NumberExpression v], (fst <$> items) ++ [c]))
  = Some (left_tree n0 (items ++ [(c, v)])).
Proof.
  rewrite <- (finish_items n0 (items ++ [(c, v)])).
  by rewrite !fmap_app.
Qed.

(** An operator with nothing but white space behind it: the extraction of
    its operand is refused and [num] still holds the number read before. *)
Lemma parse_trailing_operator num0 op0 expr ws1 c ws2 n0 items :
  phrase (ws1 ++ c :: ws2) (list_ascii_of_string expr) n0 items ->
  Forall space ws1 -> isspace c = false -> (ws1 = [] -> isdigit c = false) ->
  Forall space ws2 ->
  parse num0 op0 expr =
    Some (left_tree n0 (items ++ [(c, current_num n0 items)])).
Proof.
  intros Hp Hws1 Hc Hd Hws2.
  assert (Hnd : no_digit_ahead (ws1 ++ c :: ws2)).
  { destruct Hws1 as [| w ws1 Hw _]; simpl; [by apply Hd |].
    unfold space in Hw. unfold isspace, isdigit in *. char_cases. }
  rewrite (parse_phrase num0 op0 expr _ n0 items
             (S (S (length (ws1 ++ c :: ws2)))) Hp Hnd) by lia.
  rewrite (last_round _ c ws1 (mk_iss [] true true) _ (current_num n0 items)
             _ _ _ ws2 Hws1 Hc (extract_int_end ws2 _ Hws2) eq_refl).
  apply finish_snoc.
Qed.

Lemma scan_digits_none s acc n :
  no_digit_ahead s -> scan_digits s acc n = (acc, n, s).
Proof. destruct s as [| c s]; simpl; [done |]. by intros ->. Qed.

Lemma num_get_not_number junk :
  not_number junk -> exists eof rest, num_get junk = (0, true, eof, rest).
Proof.
  intros (j & rest & -> & Hs & Hd & Hsign). unfold num_get, scan_sign.
  destruct (Ascii.eqb_spec j "-") as [-> | Hm].
  { rewrite scan_digits_none by (apply Hsign; by right). simpl. eauto. }
  destruct (Ascii.eqb_spec j "+") as [-> | Hp].
  { rewrite scan_digits_none by (apply Hsign; by left). simpl. eauto. }
  rewrite scan_digits_none by done. simpl. eauto.
Qed.

Lemma extract_int_not_number ws junk num :
  Forall space ws -> not_number junk ->
  exists iss2, extract_int (mk_iss (ws ++ junk) false false) num = (iss2, 0)
               /\ failbit iss2 = true.
Proof.
  intros Hws Hj.
  destruct (num_get_not_number junk Hj) as (eof & rest & Hget).
  destruct Hj as (j & tl & -> & Hs & _).
  unfold extract_int, sentry, good. simpl.
  rewrite skipws_spaces by done. simpl. rewrite Hs. simpl.
  rewrite Hget. eexists. split; [done |]. done.
Qed.

(** A token that is no number where an operand is expected reads as 0
    and ends the reading. *)
Lemma parse_not_number num0 op0 expr ws1 c ws2 junk n0 items :
  phrase (ws1 ++ c :: ws2 ++ junk) (list_ascii_of_string expr) n0 items ->
  Forall space ws1 -> isspace c = false -> (ws1 = [] -> isdigit c = false) ->
  Forall space ws2 -> not_number junk ->
  parse num0 op0 expr = Some (left_tree n0 (items ++ [(c, 0)])).
Proof.
  intros Hp Hws1 Hc Hd Hws2 Hj.
  assert (Hnd : no_digit_ahead (ws1 ++ c :: ws2 ++ junk)).
  { destruct Hws1 as [| w ws1 Hw _]; simpl; [by apply Hd |].
    unfold space in Hw. unfold isspace, isdigit in *. char_cases. }
  destruct (extract_int_not_number ws2 junk (current_num n0 items) Hws2 Hj)
    as (iss2 & Hint & Hfail).
  rewrite (parse_phrase num0 op0 expr _ n0 items
             (S (S (length (ws1 ++ c :: ws2 ++ junk)))) Hp Hnd) by lia.
  rewrite (last_round _ c ws1 iss2 _ 0 _ _ _ _ Hws1 Hc Hint Hfail).
  apply finish_snoc.
Qed.

(** The same at the very start: the tree is the single number 0. *)
Lemma parse_first_not_number num0 op0 expr ws junk :
  list_ascii_of_string expr = ws ++ junk ->
  Forall space ws -> not_number junk ->
  parse num0 op0 expr = Some (NumberExpression 0).
Proof.
  intros Heq Hws Hj. rewrite parse_unfold. unfold open. rewrite Heq.
  destruct (extract_int_not_number ws junk num0 Hws Hj)
    as (iss2 & -> & Hfail).
  by rewrite read_terms_failed.
Qed.

(** ** [int] arithmetic *)

Lemma wrap_in_range z : Int.in_range z -> Int.wrap z = z.
Proof.
  unfold Int.in_range, Int.wrap, Int.min, Int.max, Int.modulus. intros H.
  rewrite Z.mod_small; lia.
Qed.

Lemma wrap_add_l a b : Int.wrap (Int.wrap a + b) = Int.wrap (a + b).
Proof.
  unfold Int.wrap. f_equal.
  replace ((a - Int.min) mod Int.modulus + Int.min + b - Int.min)
    with ((a - Int.min) mod Int.modulus + b) by lia.
  rewrite Z.add_mod_idemp_l by done. f_equal. lia.
Qed.

Lemma wrap_sub_l a b : Int.wrap (Int.wrap a - b) = Int.wrap (a - b).
Proof. apply (wrap_add_l a (- b)). Qed.

(** ** The tree of a sentence *)

Lemma left_tree_snoc n0 items it :
  left_tree n0 (items ++ [it]) = attach (left_tree n0 items) it.
Proof. unfold left_tree. by rewrite fold_left_app. Qed.

Lemma attach_sign acc it :
  plus_or_minus it.1 ->
  attach acc it = AddExpression acc (NumberExpression it.2) \/
  attach acc it = SubtractExpression acc (NumberExpression it.2).
Proof. unfold attach. intros [-> | ->]; simpl; auto. Qed.

Lemma attach_other acc it :
  it.1 <> "+"%char -> it.1 <> "-"%char -> attach acc it = acc.
Proof.
  unfold attach. intros Hp Hm.
  destruct (Ascii.eqb_spec it.1 "+"); [done |].
  by destruct (Ascii.eqb_spec it.1 "-").
Qed.

Lemma interpret_fold items : forall acc,
  interpret (fold_left attach items acc) =
  fold_left apply_int items (interpret acc).
Proof.
  induction items as [| it items IH]; intros acc; [done |].
  simpl. rewrite IH. f_equal. unfold attach, apply_int.
  destruct (Ascii.eqb it.1 "+"); [done |].
  by destruct (Ascii.eqb it.1 "-").
Qed.

Lemma fold_int_wrap items : forall z,
  fold_left apply_int items (Int.wrap z) =
  Int.wrap (fold_left apply_Z items z).
Proof.
  induction items as [| it items IH]; intros z; [done |].
  simpl. rewrite <- IH. f_equal. unfold apply_int, apply_Z, Int.add, Int.sub.
  destruct (Ascii.eqb it.1 "+"); [apply wrap_add_l |].
  destruct (Ascii.eqb it.1 "-"); [apply wrap_sub_l | done].
Qed.

Lemma interpret_left_tree n0 items :
  interpret (left_tree n0 items) = left_fold_int n0 items.
Proof. apply interpret_fold. Qed.

Lemma left_fold_int_Z n0 items :
  Int.in_range n0 ->
  left_fold_int n0 items = Int.wrap (left_fold_Z n0 items).
Proof.
  intros H. unfold left_fold_int, left_fold_Z.
  rewrite <- fold_int_wrap. by rewrite wrap_in_range.
Qed.

Lemma phrase_first_range r s n0 items : phrase r s n0 items -> Int.in_range n0.
Proof. destruct 1. by eapply literal_range. Qed.

Lemma depth_pos e : (1 <= depth e)%nat.
Proof. destruct e; simpl; lia. Qed.

Lemma shape_fold items :
  Forall (fun it => plus_or_minus it.1) items ->
  forall acc,
    let t := fold_left attach items acc in
    count_numbers t = (count_numbers acc + length items)%nat /\
    count_internal t = (count_internal acc + length items)%nat /\
    depth t = (depth acc + length items)%nat /\
    left_associative t = left_associative acc /\
    numbers t = numbers acc ++ items.*2.
Proof.
  induction 1 as [| it its Hit _ IH]; intros acc; simpl.
  - rewrite !Nat.add_0_r, app_nil_r. done.
  - destruct (IH (attach acc it)) as (H1 & H2 & H3 & H4 & H5).
    rewrite H1, H2, H3, H4, H5.
    pose proof (depth_pos acc).
    destruct (attach_sign acc it Hit) as [-> | ->]; simpl;
      rewrite andb_true_r, <- app_assoc; repeat split; try done; lia.
Qed.

Lemma descend_left_tree n0 items :
  Forall (fun it => plus_or_minus it.1) items ->
  forall j, (j <= length items)%nat ->
    descend_left j (left_tree n0 items) =
    Some (left_tree n0 (take (length items - j) items)).
Proof.
  induction items as [| it its IH] using rev_ind; intros Hs j Hj.
  - simpl in Hj. by replace j with 0%nat by lia.
  - rewrite length_app in *. simpl in Hj.
    apply Forall_app in Hs as [Hits Hit%Forall_inv].
    destruct j as [| j].
    + by rewrite Nat.sub_0_r, <- length_app, firstn_all.
    + rewrite left_tree_snoc.
      replace (length its + length [it] - S j)%nat
        with (length its - j)%nat by (simpl; lia).
      rewrite take_app_le by lia.
      destruct (attach_sign (left_tree n0 its) it Hit) as [-> | ->]; simpl;
        apply IH; auto; lia.
Qed.

(** ** Evaluation *)

Lemma interpret_st_spec e : interpret_st e = (interpret e, e).
Proof.
  induction e as [n | l IHl r IHr | l IHl r IHr]; simpl;
    [done | by rewrite IHl, IHr ..].
Qed.

Lemma interpret_within_enough e : forall bound,
  (depth e <= bound)%nat -> interpret_within bound e = Some (interpret e).
Proof.
  induction e as [n | l IHl r IHr | l IHl r IHr]; intros [| bound] Hb;
    simpl in *; try lia; try done;
    rewrite IHl, IHr by lia; done.
Qed.

Lemma interpret_within_short e : forall bound,
  (bound < depth e)%nat -> interpret_within bound e = None.
Proof.
  induction e as [n | l IHl r IHr | l IHl r IHr]; intros [| bound] Hb;
    simpl in *; try lia; try done.
  - destruct (Nat.le_gt_cases (depth l) bound) as [Hl | Hl].
    + rewrite (IHr bound) by lia. by destruct (interpret_within bound l).
    + by rewrite (IHl bound).
  - destruct (Nat.le_gt_cases (depth l) bound) as [Hl | Hl].
    + rewrite (IHr bound) by lia. by destruct (interpret_within bound l).
    + by rewrite (IHl bound).
Qed.

(** The first expression of [main]. *)
Example parse_5_plus_3_minus_2 num0 op0 :
  parse num0 op0 "5 + 3 - 2" =
    Some (SubtractExpression
            (AddExpression (NumberExpression 5) (NumberExpression 3))
            (NumberExpression 2)) /\
  interpret <$> parse num0 op0 "5 + 3 - 2" = Some 6.
Proof.
  assert (H : parse num0 op0 "5 + 3 - 2" =
    Some (SubtractExpression
            (AddExpression (NumberExpression 5) (NumberExpression 3))
            (NumberExpression 2))) by (vm_compute; reflexivity).
  by rewrite H.
Qed.

(** * The claims *)

Ltac literal :=
  first [ apply lit_plain | apply lit_plus | apply lit_minus ];
  [ discriminate | repeat constructor | vm_compute; split; discriminate ].

Ltac spaces := repeat constructor.

(** C1. For every well-formed input [N0 op1 N1 ... opk Nk] (integers of
    [int] alternating with '+' and '-', separated by optional white
    space), [parse] returns a tree and evaluating it gives the
    left-to-right fold ((N0 op1 N1) op2 N2) ... opk Nk: the fold in [int]
    arithmetic, which is the fold over the integers reduced into [int],
    hence that fold itself whenever it fits. *)
Theorem parse_evaluates_left_fold num0 op0 expr n0 items :
  well_formed (list_ascii_of_string expr) n0 items ->
  exists t,
    parse num0 op0 expr = Some t /\
    interpret t = left_fold_int n0 items /\
    interpret t = Int.wrap (left_fold_Z n0 items) /\
    (Int.in_range (left_fold_Z n0 items) ->
     interpret t = left_fold_Z n0 items).
Proof.
  intros [Hs _]. exists (left_tree n0 items).
  assert (Hr : Int.in_range n0).
  { destruct Hs as (r & _ & Hp). by eapply phrase_first_range. }
  rewrite (parse_sentence num0 op0 expr n0 items Hs).
  rewrite interpret_left_tree, left_fold_int_Z by done.
  repeat split; try done. apply wrap_in_range.
Qed.

Lemma parse_evaluates_left_fold_witness :
  well_formed (list_ascii_of_string "5 + 3 - 2") 5
    [("+"%char, 3); ("-"%char, 2)] /\
  exists t,
    parse 0 "a" "5 + 3 - 2" = Some t /\
    interpret t = left_fold_int 5 [("+"%char, 3); ("-"%char, 2)] /\
    interpret t = Int.wrap (left_fold_Z 5 [("+"%char, 3); ("-"%char, 2)]) /\
    (Int.in_range (left_fold_Z 5 [("+"%char, 3); ("-"%char, 2)]) ->
     interpret t = left_fold_Z 5 [("+"%char, 3); ("-"%char, 2)]).
Proof.
  assert (H : well_formed (list_ascii_of_string "5 + 3 - 2") 5
                [("+"%char, 3); ("-"%char, 2)]).
  { split.
    - exists []. split; [constructor |].
      apply (phrase_intro [] [] ["5"%char] 5
               (list_ascii_of_string " + 3 - 2")); [spaces | literal |].
      apply (tail_item [] [" "%char] "+" [" "%char] ["3"%char] 3
               (list_ascii_of_string " - 2"));
        [spaces | done | done | spaces | literal |].
      apply (tail_item [] [" "%char] "-" [" "%char] ["2"%char] 2 []);
        [spaces | done | done | spaces | literal |].
      constructor.
    - constructor; [by left |]. constructor; [by right |]. constructor. }
  split; [exact H |].
  exact (parse_evaluates_left_fold 0 "a" "5 + 3 - 2" 5 _ H).
Defined.

(** C2. Parsing is strictly left-associative, without precedence:
    "10 - 4 + 2" parses as (10 - 4) + 2 and evaluates to 8; the tree is
    not 10 - (4 + 2), which would evaluate to 4. *)
Theorem parse_10_minus_4_plus_2 : forall num0 op0,
  parse num0 op0 "10 - 4 + 2" =
    Some (AddExpression
            (SubtractExpression (NumberExpression 10) (NumberExpression 4))
            (NumberExpression 2)) /\
  parse num0 op0 "10 - 4 + 2" <>
    Some (SubtractExpression (NumberExpression 10)
            (AddExpression (NumberExpression 4) (NumberExpression 2))) /\
  interpret <$> parse num0 op0 "10 - 4 + 2" = Some 8 /\
  interpret (SubtractExpression (NumberExpression 10)
               (AddExpression (NumberExpression 4) (NumberExpression 2))) = 4.
Proof.
  intros num0 op0.
  assert (H : parse num0 op0 "10 - 4 + 2" =
    Some (AddExpression
            (SubtractExpression (NumberExpression 10) (NumberExpression 4))
            (NumberExpression 2))) by (vm_compute; reflexivity).
  rewrite H. repeat split; try done.
Qed.

(** C3. The contract of each kind of node: a Number evaluates to its
    stored literal, an Add to the sum and a Subtract to the difference of
    what its operands evaluate to, in [int] arithmetic; this is the exact
    sum or difference whenever that fits in [int]. *)
Theorem interpret_contract :
  (forall n, interpret (NumberExpression n) = n) /\
  (forall l r,
     interpret (AddExpression l r) = Int.add (interpret l) (interpret r)) /\
  (forall l r,
     interpret (SubtractExpression l r) =
     Int.sub (interpret l) (interpret r)) /\
  (forall l r, Int.in_range (interpret l + interpret r) ->
     interpret (AddExpression l r) = interpret l + interpret r) /\
  (forall l r, Int.in_range (interpret l - interpret r) ->
     interpret (SubtractExpression l r) = interpret l - interpret r).
Proof.
  repeat split; try done; intros l r H; simpl;
    unfold Int.add, Int.sub; by apply wrap_in_range.
Qed.

(** C4. For a well-formed input with k operators the tree that [parse]
    returns has k+1 Number leaves and k Add or Subtract nodes, each with
    its two operands; every right operand is a Number, the numbers occur
    from left to right in the order of the input, and the subtree reached
    by j steps to the left is the accumulator of the terms before the
    last j operators: the tree of the first k-j pairs. *)
Theorem parse_tree_shape num0 op0 expr n0 items :
  well_formed (list_ascii_of_string expr) n0 items ->
  exists t,
    parse num0 op0 expr = Some t /\
    count_numbers t = S (length items) /\
    count_internal t = length items /\
    left_associative t = true /\
    numbers t = n0 :: items.*2 /\
    forall j, (j <= length items)%nat ->
      descend_left j t = Some (left_tree n0 (take (length items - j) items)).
Proof.
  intros [Hs Hsigns]. exists (left_tree n0 items).
  rewrite (parse_sentence num0 op0 expr n0 items Hs).
  destruct (shape_fold items Hsigns (NumberExpression n0))
    as (H1 & H2 & _ & H4 & H5).
  repeat split; try done.
  by apply descend_left_tree.
Qed.

Lemma parse_tree_shape_witness :
  well_formed (list_ascii_of_string "10 - 4 + 2") 10
    [("-"%char, 4); ("+"%char, 2)] /\
  exists t,
    parse 0 "a" "10 - 4 + 2" = Some t /\
    count_numbers t = 3%nat /\
    count_internal t = 2%nat /\
    left_associative t = true /\
    numbers t = [10; 4; 2] /\
    forall j, (j <= 2)%nat ->
      descend_left j t =
      Some (left_tree 10 (take (2 - j) [("-"%char, 4); ("+"%char, 2)])).
Proof.
  assert (H : well_formed (list_ascii_of_string "10 - 4 + 2") 10
                [("-"%char, 4); ("+"%char, 2)]).
  { split.
    - exists []. split; [constructor |].
      apply (phrase_intro [] [] ["1"%char; "0"%char] 10
               (list_ascii_of_string " - 4 + 2")); [spaces | literal |].
      apply (tail_item [] [" "%char] "-" [" "%char] ["4"%char] 4
               (list_ascii_of_string " + 2"));
        [spaces | done | done | spaces | literal |].
      apply (tail_item [] [" "%char] "+" [" "%char] ["2"%char] 2 []);
        [spaces | done | done | spaces | literal |].
      constructor.
    - constructor; [by right |]. constructor; [by left |]. constructor. }
  split; [exact H |].
  exact (parse_tree_shape 0 "a" "10 - 4 + 2" 10 _ H).
Defined.

(** C6. Evaluation is pure and deterministic: a call of [interpret]
    leaves the tree as it was, and any number of calls in a row on the
    same tree return the same integer each time. *)
Theorem interpret_pure e n :
  interpret_st e = (interpret e, e) /\
  interpret_times n e = (replicate n (interpret e), e).
Proof.
  split; [apply interpret_st_spec |].
  induction n as [| n IH]; simpl; [done |].
  by rewrite interpret_st_spec, IH.
Qed.

(** C7. An input that shows one number and no operator parses to a lone
    Number leaf, which evaluates to that number; so does "7", to 7. *)
Theorem parse_single_number num0 op0 expr n0 :
  sentence (list_ascii_of_string expr) n0 [] ->
  parse num0 op0 expr = Some (NumberExpression n0) /\
  interpret <$> parse num0 op0 expr = Some n0.
Proof.
  intros Hs. by rewrite (parse_sentence num0 op0 expr n0 [] Hs).
Qed.

Lemma parse_single_number_witness :
  sentence (list_ascii_of_string "7") 7 [] /\
  parse 0 "a" "7" = Some (NumberExpression 7) /\
  interpret <$> parse 0 "a" "7" = Some 7.
Proof.
  assert (H : sentence (list_ascii_of_string "7") 7 []).
  { exists []. split; [constructor |].
    apply (phrase_intro [] [] ["7"%char] 7 []); [spaces | literal |].
    constructor. }
  split; [exact H |].
  exact (parse_single_number 0 "a" "7" 7 H).
Defined.

(** C8. Evaluation of a tree terminates and never fails: it needs calls
    nested no deeper than the depth of the tree, any bound from the depth
    on yields the value, and every input gives [parse] a tree for which
    this holds. *)
Theorem interpret_terminates :
  (forall e k, interpret_within (depth e + k) e = Some (interpret e)) /\
  (forall e bound, (bound < depth e)%nat -> interpret_within bound e = None) /\
  (forall num0 op0 expr, exists t,
     parse num0 op0 expr = Some t /\
     interpret_within (depth t) t = Some (interpret t)).
Proof.
  split; [| split].
  - intros e k. apply interpret_within_enough. lia.
  - apply interpret_within_short.
  - intros num0 op0 expr.
    destruct (parse_total num0 op0 expr) as [t Ht].
    exists t. split; [done |]. by apply interpret_within_enough.
Qed.

(** C5, as stated, fails: [parse] has no error to raise.  For "5 + ",
    an operator with no number behind it, it returns the tree 5 + 5, and
    for "5 + x", where a token is no integer, the tree 5 + 0. *)
Lemma parse_malformed_counterexample :
  parse 42 "a" "5 + " =
    Some (AddExpression (NumberExpression 5) (NumberExpression 5)) /\
  parse 42 "a" "5 + " <> None /\
  parse 42 "a" "5 + x" =
    Some (AddExpression (NumberExpression 5) (NumberExpression 0)) /\
  parse 42 "a" "5 + x" <> None.
Proof. repeat split; try done. Qed.

(** C5, amended. Malformed input that starts with a token raises no
    error; [parse] returns a tree for it.  An operator with only white
    space behind it gets the number read before it as its operand; a
    token that is no number, where an operand is expected, reads as 0 and
    ends the reading, and at the start of the input it gives the Number
    leaf 0. *)
Theorem parse_malformed_returns_tree :
  (forall num0 op0 expr ws1 c ws2 n0 items,
     phrase (ws1 ++ c :: ws2) (list_ascii_of_string expr) n0 items ->
     Forall space ws1 -> isspace c = false ->
     (ws1 = [] -> isdigit c = false) -> Forall space ws2 ->
     parse num0 op0 expr =
       Some (left_tree n0 (items ++ [(c, current_num n0 items)]))) /\
  (forall num0 op0 expr ws1 c ws2 junk n0 items,
     phrase (ws1 ++ c :: ws2 ++ junk) (list_ascii_of_string expr) n0 items ->
     Forall space ws1 -> isspace c = false ->
     (ws1 = [] -> isdigit c = false) -> Forall space ws2 ->
     not_number junk ->
     parse num0 op0 expr = Some (left_tree n0 (items ++ [(c, 0)]))) /\
  (forall num0 op0 expr ws junk,
     list_ascii_of_string expr = ws ++ junk ->
     Forall space ws -> not_number junk ->
     parse num0 op0 expr = Some (NumberExpression 0)).
Proof.
  repeat split.
  - apply parse_trailing_operator.
  - apply parse_not_number.
  - apply parse_first_not_number.
Qed.

(** C9, as stated, fails: "5 + " evaluates to 10, not to 5; the tree is
    5 + 5, not 5 + 0. *)
Lemma parse_no_error_counterexample :
  interpret <$> parse 1 "a" "5 + " = Some 10 /\
  interpret <$> parse 1 "a" "5 + " <> Some 5 /\
  parse 1 "a" "5 + " =
    Some (AddExpression (NumberExpression 5) (NumberExpression 5)) /\
  parse 1 "a" "5 + " <>
    Some (AddExpression (NumberExpression 5) (NumberExpression 0)).
Proof. repeat split; try done. Qed.

(** C9, amended. For every input string [parse] returns a tree and
    signals no error.  When the extraction of an expected integer meets a
    token that is no number the value read is 0, so "5 + x" evaluates to
    5; when the input ends before the integer expected after an operator
    nothing is read and [num] keeps the number read before, so a trailing
    operator is treated as if followed by that number: "5 + " evaluates
    to 10. *)
Theorem parse_no_error :
  (forall num0 op0 expr, exists t, parse num0 op0 expr = Some t) /\
  (forall ws junk num, Forall space ws -> not_number junk ->
     (extract_int (mk_iss (ws ++ junk) false false) num).2 = 0) /\
  (forall ws num, Forall space ws ->
     (extract_int (mk_iss ws false false) num).2 = num) /\
  (forall num0 op0 expr ws1 c ws2 n0 items,
     phrase (ws1 ++ c :: ws2) (list_ascii_of_string expr) n0 items ->
     Forall space ws1 -> isspace c = false ->
     (ws1 = [] -> isdigit c = false) -> Forall space ws2 ->
     interpret <$> parse num0 op0 expr =
       Some (left_fold_int n0 (items ++ [(c, current_num n0 items)]))) /\
  (forall num0 op0, interpret <$> parse num0 op0 "5 + x" = Some 5) /\
  (forall num0 op0, interpret <$> parse num0 op0 "5 + " = Some 10).
Proof.
  split; [| split; [| split; [| split; [| split]]]].
  - intros num0 op0 expr. apply parse_total.
  - intros ws junk num Hws Hj.
    by destruct (extract_int_not_number ws junk num Hws Hj) as (iss2 & -> & _).
  - intros ws num Hws. by rewrite extract_int_end.
  - intros num0 op0 expr ws1 c ws2 n0 items Hp Hws1 Hc Hd Hws2.
    rewrite (parse_trailing_operator num0 op0 expr ws1 c ws2 n0 items)
      by done.
    simpl. by rewrite interpret_left_tree.
  - intros num0 op0. vm_compute. reflexivity.
  - intros num0 op0. vm_compute. reflexivity.
Qed.

(** C10. An operator token other than '+' and '-' leaves the accumulator
    of the tree-building loop as it is, so the operator and the number
    after it are dropped: a sentence with such a pair parses to the tree
    of the sentence without the pair, and "5 * 3" to the Number leaf 5,
    which evaluates to 5. *)
Theorem parse_drops_unknown_operator :
  (forall terms ops todo i result o,
     ops !! i = Some o -> o <> "+"%char -> o <> "-"%char ->
     build terms ops (S todo) i result = build terms ops todo (S i) result) /\
  (forall num0 op0 expr n0 before c v after,
     sentence (list_ascii_of_string expr) n0 (before ++ (c, v) :: after) ->
     c <> "+"%char -> c <> "-"%char ->
     parse num0 op0 expr = Some (left_tree n0 (before ++ after))) /\
  (forall num0 op0,
     parse num0 op0 "5 * 3" = Some (NumberExpression 5) /\
     interpret <$> parse num0 op0 "5 * 3" = Some 5).
Proof.
  split; [| split].
  - intros terms ops todo i result o Ho Hp Hm. rewrite build_S, Ho.
    destruct (Ascii.eqb_spec o "+"); [done |].
    by destruct (Ascii.eqb_spec o "-").
  - intros num0 op0 expr n0 before c v after Hs Hp Hm.
    rewrite (parse_sentence num0 op0 expr n0 _ Hs). f_equal.
    unfold left_tree. rewrite !fold_left_app. simpl.
    by rewrite (attach_other _ (c, v)).
  - intros num0 op0.
    assert (H : parse num0 op0 "5 * 3" = Some (NumberExpression 5))
      by (vm_compute; reflexivity).
    by rewrite H.
Qed.

(** * Further properties of the parser and of evaluation *)

(** ** The uninitialised locals *)

Lemma extract_char_indep iss op op' :
  (extract_char iss op).1 = (extract_char iss op').1 /\
  (ok (extract_char iss op).1 = true ->
   (extract_char iss op).2 = (extract_char iss op').2).
Proof.
  unfold extract_char. pose proof (sentry_refuses iss) as Hr.
  destruct (sentry iss) as [[] iss1]; simpl in *.
  - destruct (buf iss1); simpl; [| done].
    split; [done |]. unfold ok. simpl. by rewrite orb_true_r.
  - split; [done |]. unfold ok. by rewrite Hr.
Qed.

Lemma read_terms_op_indep fuel : forall iss num op op' terms ops,
  read_terms fuel iss num op terms ops =
  read_terms fuel iss num op' terms ops.
Proof.
  induction fuel as [| fuel IH]; intros iss num op op' terms ops; [done |].
  rewrite !read_terms_S.
  destruct (extract_char_indep iss op op') as [H1 H2].
  destruct (extract_char iss op) as [iss1 op1].
  destruct (extract_char iss op') as [iss1' op1']. simpl in *. subst iss1'.
  destruct (ok iss1); [| done].
  rewrite <- (H2 eq_refl). by destruct (extract_int iss1 num).
Qed.

Lemma skipws_nonblank s : Exists nonspace s -> skipws s <> [].
Proof.
  induction 1 as [c s Hc | c s _ IH]; simpl.
  - unfold nonspace in Hc. by rewrite Hc.
  - by destruct (isspace c).
Qed.

Lemma extract_int_indep iss num num' :
  (sentry iss).1 = true -> extract_int iss num = extract_int iss num'.
Proof.
  unfold extract_int. destruct (sentry iss) as [[] iss1]; simpl; [| done].
  by destruct (num_get (buf iss1)) as [[[v fail] eof] rest].
Qed.

(** ** Values stay within [int] *)

Lemma num_get_range s : Int.in_range (num_get s).1.1.1.
Proof.
  unfold num_get. destruct (scan_sign s) as [negative s1].
  destruct (scan_digits s1 0 0) as [[result count] rest].
  destruct (Nat.eqb count 0); [by vm_compute |].
  destruct (Z.ltb_spec (if negative then - result else result) Int.min);
    [by vm_compute |].
  destruct (Z.ltb_spec Int.max (if negative then - result else result));
    [by vm_compute |].
  simpl. by split.
Qed.

Lemma extract_int_range iss num :
  Int.in_range num -> Int.in_range (extract_int iss num).2.
Proof.
  intros H. unfold extract_int. destruct (sentry iss) as [[] iss1]; [| done].
  pose proof (num_get_range (buf iss1)) as Hr.
  by destruct (num_get (buf iss1)) as [[[v fail] eof] rest].
Qed.

(** ** The vectors of [parse] *)

(** The loop only appends, a Number for every operator, and takes a
    character from the buffer for every operator. *)
Lemma read_terms_appends fuel : forall iss num op terms ops terms' ops',
  read_terms fuel iss num op terms ops = Some (terms', ops') ->
  exists nums new_ops,
    terms' = terms ++ (NumberExpression <$> nums) /\
    ops' = ops ++ new_ops /\
    length nums = length new_ops /\
    (length new_ops <= length (buf iss))%nat /\
    (Int.in_range num -> Forall Int.in_range nums).
Proof.
  induction fuel as [| fuel IH]; intros iss num op terms ops terms' ops' H;
    [done |].
  rewrite read_terms_S in H.
  pose proof (extract_char_buf iss op) as Hc.
  destruct (extract_char iss op) as [iss1 op1]. simpl in Hc.
  destruct (ok iss1).
  - pose proof (extract_int_buf iss1 num) as Hi.
    pose proof (extract_int_range iss1 num) as Hr.
    destruct (extract_int iss1 num) as [iss2 num1]. simpl in Hi, Hr.
    specialize (Hc eq_refl).
    destruct (IH _ _ _ _ _ _ _ H) as (nums & new_ops & -> & -> & Hl & Hb & Hn).
    exists (num1 :: nums), (op1 :: new_ops).
    rewrite <- !app_assoc. simpl. repeat split; try done; try lia.
    intros Hnum. constructor; auto.
  - injection H as <- <-. exists [], []. rewrite !app_nil_r.
    repeat split; try done. simpl. lia.
Qed.

Lemma count_numbers_internal e : count_numbers e = S (count_internal e).
Proof.
  induction e as [n | l IHl r IHr | l IHl r IHr]; simpl; [done | lia ..].
Qed.

(** The tree-building loop keeps the tree leaning to the left, adds at
    most one node in a round, and puts no number in the tree that is not
    in [terms]. *)
Lemma build_shape (P : Z -> Prop) nums ops todo :
  Forall P nums ->
  forall i result t,
    build (NumberExpression <$> nums) ops todo i result = Some t ->
    left_associative result = true -> Forall P (numbers result) ->
    left_associative t = true /\
    (count_internal t <= count_internal result + todo)%nat /\
    (depth t <= depth result + todo)%nat /\
    Forall P (numbers t).
Proof.
  intros Hnums.
  induction todo as [| todo IH]; intros i result t H Hl Hp.
  - injection H as <-. repeat split; try done; lia.
  - rewrite build_S in H.
    destruct (ops !! i) as [o |]; [| done].
    assert (Hstep : forall node,
      (node = AddExpression \/ node = SubtractExpression) ->
      match (NumberExpression <$> nums) !! (i + 1)%nat with
      | Some tm => build (NumberExpression <$> nums) ops todo (S i)
                     (node result tm)
      | None => None
      end = Some t ->
      left_associative t = true /\
      (count_internal t <= count_internal result + S todo)%nat /\
      (depth t <= depth result + S todo)%nat /\
      Forall P (numbers t)).
    { intros node Hnode Hb.
      destruct ((NumberExpression <$> nums) !! (i + 1)%nat) as [tm |] eqn:E;
        [| done].
      rewrite list_lookup_fmap in E.
      destruct (nums !! (i + 1)%nat) as [n |] eqn:En; [| done].
      injection E as <-.
      assert (Hn : P n) by exact (Forall_lookup_1 _ _ _ _ Hnums En).
      pose proof (depth_pos result) as Hd.
      destruct (IH (S i) (node result (NumberExpression n)) t Hb)
        as (H1 & H2 & H3 & H4).
      - destruct Hnode as [-> | ->]; simpl; by rewrite Hl.
      - destruct Hnode as [-> | ->]; simpl; apply Forall_app; split;
          try done; by constructor.
      - destruct Hnode as [-> | ->]; simpl in *; repeat split; try done; lia. }
    destruct (Ascii.eqb o "+"); [apply (Hstep AddExpression); auto |].
    destruct (Ascii.eqb o "-"); [apply (Hstep SubtractExpression); auto |].
    destruct (IH (S i) result t H Hl Hp) as (H1 & H2 & H3 & H4).
    repeat split; try done; lia.
Qed.

(** [parse] in terms of the numbers and operators it has read. *)
Lemma parse_structure num0 op0 expr :
  exists num nums ops t,
    parse num0 op0 expr = Some t /\
    build (NumberExpression <$> (num :: nums)) ops (length ops) 0
      (NumberExpression num) = Some t /\
    length nums = length ops /\
    (length ops <= String.length expr)%nat /\
    (Int.in_range num0 -> Forall Int.in_range (num :: nums)).
Proof.
  destruct (parse_total num0 op0 expr) as [t Ht].
  pose proof (parse_unfold num0 op0 expr) as Hu. rewrite Ht in Hu.
  pose proof (extract_int_buf (open expr) num0) as Hlen.
  pose proof (extract_int_range (open expr) num0) as Hrange.
  destruct (extract_int (open expr) num0) as [iss1 num].
  simpl in Hlen, Hrange. rewrite length_list_ascii_of_string in Hlen.
  destruct (read_terms (S (String.length expr)) iss1 num op0
              [NumberExpression num] []) as [[terms ops] |] eqn:E; [| done].
  destruct (read_terms_appends _ _ _ _ _ _ _ _ E)
    as (nums & new_ops & -> & -> & Hl & Hb & Hn).
  simpl in Hu. exists num, nums, new_ops, t.
  repeat split; try done; try lia.
  intros H0. constructor; auto.
Qed.

(** X1. The local [op], which is declared without an initialiser, is
    never read before it is written: the tree that [parse] returns does
    not depend on its initial contents. *)
Theorem parse_ignores_op0 num0 op0 op0' expr :
  parse num0 op0 expr = parse num0 op0' expr.
Proof.
  rewrite !parse_unfold. destruct (extract_int (open expr) num0) as [iss1 num].
  by rewrite (read_terms_op_indep _ iss1 num op0 op0').
Qed.

(** X2. The local [num], which is declared without an initialiser, is
    written before it is read whenever the input has a character that is
    not white space: for such input the tree does not depend on the
    initial contents of [num] and [op]. *)
Theorem parse_ignores_num0 num0 num0' op0 op0' expr :
  Exists nonspace (list_ascii_of_string expr) ->
  parse num0 op0 expr = parse num0' op0' expr.
Proof.
  intros H. rewrite !parse_unfold.
  rewrite (extract_int_indep (open expr) num0 num0').
  { destruct (extract_int (open expr) num0') as [iss1 num].
    by rewrite (read_terms_op_indep _ iss1 num op0 op0'). }
  unfold sentry, open, good. simpl.
  pose proof (skipws_nonblank _ H) as Hs.
  by destruct (skipws (list_ascii_of_string expr)).
Qed.

Lemma parse_ignores_num0_witness :
  Exists nonspace (list_ascii_of_string "5 + ") /\
  parse 0 "a" "5 + " = parse 77 "b" "5 + ".
Proof.
  assert (H : Exists nonspace (list_ascii_of_string "5 + "))
    by (apply Exists_cons_hd; reflexivity).
  split; [exact H |].
  exact (parse_ignores_num0 0 77 "a" "b" "5 + " H).
Defined.

(** X3. With fuel beyond the length of the buffer, which is what
    [parse] supplies, the reading loop ends and has only appended to its
    two vectors: one Number for every operator, and no more operators
    than the buffer has characters. *)
Theorem read_terms_invariant fuel iss num op terms ops :
  (length (buf iss) < fuel)%nat ->
  exists nums new_ops,
    read_terms fuel iss num op terms ops =
      Some (terms ++ (NumberExpression <$> nums), ops ++ new_ops) /\
    length nums = length new_ops /\
    (length new_ops <= length (buf iss))%nat.
Proof.
  intros Hfuel.
  destruct (read_terms_total fuel iss num op terms ops Hfuel)
    as (terms' & ops' & H & _).
  destruct (read_terms_appends _ _ _ _ _ _ _ _ H)
    as (nums & new_ops & -> & -> & Hl & Hb & _).
  by exists nums, new_ops.
Qed.

Lemma read_terms_invariant_witness :
  (length (buf (open " + 2 * 3")) < 9)%nat /\
  exists nums new_ops,
    read_terms 9 (open " + 2 * 3") 1 "a" [NumberExpression 1] [] =
      Some ([NumberExpression 1] ++ (NumberExpression <$> nums),
            [] ++ new_ops) /\
    length nums = length new_ops /\
    (length new_ops <= length (buf (open " + 2 * 3")))%nat.
Proof.
  assert (H : (length (buf (open " + 2 * 3")) < 9)%nat) by (simpl; lia).
  split; [exact H |].
  exact (read_terms_invariant 9 (open " + 2 * 3") 1 "a" [NumberExpression 1]
           [] H).
Defined.

(** X4. Whatever the input, the tree that [parse] returns leans to the
    left (every right operand is a Number), has one more leaf than inner
    nodes, and is no larger than the input: it has at most as many inner
    nodes as the input has characters, and its depth exceeds that number
    by one at most. *)
Theorem parse_tree_bounded num0 op0 expr :
  exists t,
    parse num0 op0 expr = Some t /\
    left_associative t = true /\
    count_numbers t = S (count_internal t) /\
    (count_internal t <= String.length expr)%nat /\
    (depth t <= S (String.length expr))%nat.
Proof.
  destruct (parse_structure num0 op0 expr)
    as (num & nums & ops & t & Hp & Hb & Hl & Hlen & _).
  exists t. split; [done |].
  destruct (build_shape (fun _ => True) (num :: nums) ops (length ops)
              (Forall_true _ _ (fun _ => I)) 0 (NumberExpression num) t Hb)
    as (H1 & H2 & H3 & _); [done | by repeat constructor |].
  simpl in H2, H3.
  repeat split; [done | apply count_numbers_internal | lia | lia].
Qed.

(** ** Literals outside [int] *)

Lemma wide_literal_head lit v :
  wide_literal lit v -> exists c rest, lit = c :: rest /\ isspace c = false.
Proof.
  destruct 1 as [ds Hne Hds | ds _ _ | ds _ _]; [| by eauto ..].
  destruct Hds as [| c ds Hc _]; [done |].
  exists c, ds. split; [done | by apply digit_not_space].
Qed.

Lemma num_get_wide_digits ds s (negative : bool) :
  ds <> [] -> Forall digit ds -> no_digit_ahead s ->
  let v := if negative then - digits_value ds else digits_value ds in
  (let '(result, count, rest) := scan_digits (ds ++ s) 0 0 in
   let v := if negative then - result else result in
   if Nat.eqb count 0 then (0, true, at_end rest, rest)
   else if v <? Int.min then (Int.min, true, at_end rest, rest)
   else if Int.max <? v then (Int.max, true, at_end rest, rest)
   else (v, false, at_end rest, rest)) =
  (clamp v, (v <? Int.min) || (Int.max <? v), at_end s, s).
Proof.
  intros Hne Hds Hs. rewrite scan_digits_run by done.
  fold (digits_value ds).
  destruct ds as [| d ds]; [done |]. simpl length. simpl Nat.eqb.
  cbv zeta. unfold clamp.
  set (v := if negative then - digits_value (d :: ds)
            else digits_value (d :: ds)).
  destruct (v <? Int.min); [done |]. by destruct (Int.max <? v).
Qed.

Lemma num_get_wide lit v s :
  wide_literal lit v -> no_digit_ahead s ->
  num_get (lit ++ s) =
    (clamp v, (v <? Int.min) || (Int.max <? v), at_end s, s).
Proof.
  intros Hlit Hs. unfold num_get.
  destruct Hlit as [ds Hne Hds | ds Hne Hds | ds Hne Hds].
  - destruct Hds as [| c ds Hc Hds]; [done |].
    simpl app. unfold scan_sign.
    rewrite (digit_not_minus c Hc), (digit_not_plus c Hc).
    change (c :: ds ++ s) with ((c :: ds) ++ s).
    apply (num_get_wide_digits (c :: ds) s false); auto.
  - simpl app. unfold scan_sign. simpl Ascii.eqb.
    apply (num_get_wide_digits ds s false); auto.
  - simpl app. unfold scan_sign. simpl Ascii.eqb.
    apply (num_get_wide_digits ds s true); auto.
Qed.

Lemma extract_int_wide ws lit v s num :
  Forall space ws -> wide_literal lit v -> no_digit_ahead s ->
  extract_int (mk_iss (ws ++ lit ++ s) false false) num =
    (mk_iss s (at_end s) ((v <? Int.min) || (Int.max <? v)), clamp v).
Proof.
  intros Hws Hlit Hs.
  destruct (wide_literal_head lit v Hlit) as (c & rest & -> & Hc).
  unfold extract_int, sentry, good. simpl.
  rewrite skipws_spaces by done. simpl. rewrite Hc. simpl.
  change (c :: rest ++ s) with ((c :: rest) ++ s).
  by rewrite (num_get_wide _ v s Hlit Hs).
Qed.

Lemma out_of_range v :
  ~ Int.in_range v -> (v <? Int.min) || (Int.max <? v) = true.
Proof.
  unfold Int.in_range. intros H.
  destruct (Z.ltb_spec v Int.min); [done |].
  destruct (Z.ltb_spec Int.max v); [done | lia].
Qed.

(** X6. A literal whose value is outside [int] is read as the nearest
    bound of [int], and it ends the reading: as the operand of an
    operator it enters the tree with that bound and the text behind it is
    ignored; as the first number it gives a lone Number leaf with that
    bound.  So "1 + 99999999999 - 5" parses to 1 + 2147483647, and
    "-99999999999 + 1" to the leaf -2147483648. *)
Theorem parse_clamps_literal :
  (forall num0 op0 expr ws1 c ws2 lit v rest n0 items,
     phrase (ws1 ++ c :: ws2 ++ lit ++ rest) (list_ascii_of_string expr)
       n0 items ->
     Forall space ws1 -> isspace c = false ->
     (ws1 = [] -> isdigit c = false) -> Forall space ws2 ->
     wide_literal lit v -> ~ Int.in_range v -> no_digit_ahead rest ->
     parse num0 op0 expr = Some (left_tree n0 (items ++ [(c, clamp v)]))) /\
  (forall num0 op0 expr ws lit v rest,
     list_ascii_of_string expr = ws ++ lit ++ rest ->
     Forall space ws -> wide_literal lit v -> ~ Int.in_range v ->
     no_digit_ahead rest ->
     parse num0 op0 expr = Some (NumberExpression (clamp v))) /\
  (forall v, Int.max < v -> clamp v = Int.max) /\
  (forall v, v < Int.min -> clamp v = Int.min) /\
  (forall num0 op0,
     parse num0 op0 "1 + 99999999999 - 5" =
       Some (AddExpression (NumberExpression 1)
               (NumberExpression 2147483647))) /\
  (forall num0 op0,
     parse num0 op0 "-99999999999 + 1" =
       Some (NumberExpression (-2147483648))).
Proof.
  split; [| split; [| split; [| split; [| split]]]].
  - intros num0 op0 expr ws1 c ws2 lit v rest n0 items
      Hp Hws1 Hc Hd Hws2 Hlit Hv Hrest.
    assert (Hnd : no_digit_ahead (ws1 ++ c :: ws2 ++ lit ++ rest)).
    { destruct Hws1 as [| w ws1 Hw _]; simpl; [by apply Hd |].
      unfold space in Hw. unfold isspace, isdigit in *. char_cases. }
    rewrite (parse_phrase num0 op0 expr _ n0 items
               (S (S (length (ws1 ++ c :: ws2 ++ lit ++ rest)))) Hp Hnd)
      by lia.
    rewrite (last_round _ c ws1 (mk_iss rest (at_end rest) true) _ (clamp v)
               _ _ _ (ws2 ++ lit ++ rest) Hws1 Hc).
    + apply finish_snoc.
    + rewrite (extract_int_wide ws2 lit v rest _ Hws2 Hlit Hrest).
      by rewrite out_of_range.
    + done.
  - intros num0 op0 expr ws lit v rest Heq Hws Hlit Hv Hrest.
    rewrite parse_unfold. unfold open. rewrite Heq.
    rewrite (extract_int_wide ws lit v rest _ Hws Hlit Hrest).
    rewrite out_of_range by done. by rewrite read_terms_failed.
  - intros v Hv. unfold clamp.
    destruct (Z.ltb_spec v Int.min) as [Hlt |]; [unfold Int.min, Int.max in *; lia |].
    by destruct (Z.ltb_spec Int.max v); [| lia].
  - intros v Hv. unfold clamp. by destruct (Z.ltb_spec v Int.min); [| lia].
  - intros num0 op0. vm_compute. reflexivity.
  - intros num0 op0. vm_compute. reflexivity.
Qed.

(** ** White space *)

(** X7. White space between the tokens of a sentence does not matter,
    and none is needed: two texts that show the same first number and
    the same pairs parse to the same tree. *)
Theorem parse_whitespace_insensitive num0 op0 expr1 expr2 n0 items :
  sentence (list_ascii_of_string expr1) n0 items ->
  sentence (list_ascii_of_string expr2) n0 items ->
  parse num0 op0 expr1 = parse num0 op0 expr2 /\
  parse num0 op0 expr1 = Some (left_tree n0 items).
Proof.
  intros H1 H2.
  rewrite (parse_sentence num0 op0 expr1 n0 items H1).
  by rewrite (parse_sentence num0 op0 expr2 n0 items H2).
Qed.

(** Example sentences. *)
Lemma sentence_5_plus_3_minus_2 :
  sentence (list_ascii_of_string "5 + 3 - 2") 5
    [("+"%char, 3); ("-"%char, 2)].
Proof.
  exists []. split; [constructor |].
  apply (phrase_intro [] [] ["5"%char] 5
           (list_ascii_of_string " + 3 - 2")); [spaces | literal |].
  apply (tail_item [] [" "%char] "+" [" "%char] ["3"%char] 3
           (list_ascii_of_string " - 2"));
    [spaces | done | done | spaces | literal |].
  apply (tail_item [] [" "%char] "-" [" "%char] ["2"%char] 2 []);
    [spaces | done | done | spaces | literal |].
  constructor.
Qed.

Lemma sentence_5_minus_2_plus_3 :
  sentence (list_ascii_of_string "5 - 2 + 3") 5
    [("-"%char, 2); ("+"%char, 3)].
Proof.
  exists []. split; [constructor |].
  apply (phrase_intro [] [] ["5"%char] 5
           (list_ascii_of_string " - 2 + 3")); [spaces | literal |].
  apply (tail_item [] [" "%char] "-" [" "%char] ["2"%char] 2
           (list_ascii_of_string " + 3"));
    [spaces | done | done | spaces | literal |].
  apply (tail_item [] [" "%char] "+" [" "%char] ["3"%char] 3 []);
    [spaces | done | done | spaces | literal |].
  constructor.
Qed.

Lemma sentence_dense :
  sentence (list_ascii_of_string "5+3-2") 5 [("+"%char, 3); ("-"%char, 2)].
Proof.
  exists []. split; [constructor |].
  apply (phrase_intro [] [] ["5"%char] 5 (list_ascii_of_string "+3-2"));
    [spaces | literal |].
  apply (tail_item [] [] "+" [] ["3"%char] 3 (list_ascii_of_string "-2"));
    [spaces | done | done | spaces | literal |].
  apply (tail_item [] [] "-" [] ["2"%char] 2 []);
    [spaces | done | done | spaces | literal |].
  constructor.
Qed.

Lemma parse_whitespace_insensitive_witness :
  sentence (list_ascii_of_string "5 + 3 - 2") 5
    [("+"%char, 3); ("-"%char, 2)] /\
  sentence (list_ascii_of_string "5+3-2") 5 [("+"%char, 3); ("-"%char, 2)] /\
  parse 0 "a" "5 + 3 - 2" = parse 0 "a" "5+3-2" /\
  parse 0 "a" "5 + 3 - 2" =
    Some (left_tree 5 [("+"%char, 3); ("-"%char, 2)]).
Proof.
  split; [exact sentence_5_plus_3_minus_2 |].
  split; [exact sentence_dense |].
  exact (parse_whitespace_insensitive 0 "a" "5 + 3 - 2" "5+3-2" 5 _
           sentence_5_plus_3_minus_2 sentence_dense).
Defined.

(** ** The value of a sentence *)

Lemma apply_Z_signed z it : apply_Z z it = z + signed it.
Proof.
  unfold apply_Z, signed. destruct (Ascii.eqb it.1 "+"); [done |].
  destruct (Ascii.eqb it.1 "-"); lia.
Qed.

Lemma left_fold_Z_sum items : forall z,
  fold_left apply_Z items z = z + signed_sum items.
Proof.
  induction items as [| it items IH]; intros z; simpl; [lia |].
  rewrite IH, apply_Z_signed. lia.
Qed.

Lemma signed_sum_perm items1 items2 :
  items1 ≡ₚ items2 -> signed_sum items1 = signed_sum items2.
Proof. induction 1; simpl; lia. Qed.

Lemma sentence_value num0 op0 expr n0 items :
  sentence (list_ascii_of_string expr) n0 items ->
  interpret <$> parse num0 op0 expr = Some (Int.wrap (n0 + signed_sum items)).
Proof.
  intros Hs.
  assert (Hr : Int.in_range n0).
  { destruct Hs as (r & _ & Hp). by eapply phrase_first_range. }
  rewrite (parse_sentence num0 op0 expr n0 items Hs). simpl.
  rewrite interpret_left_tree, left_fold_int_Z by done.
  unfold left_fold_Z. by rewrite left_fold_Z_sum.
Qed.

(** X8. The value of a sentence is its first number plus the numbers
    after '+' minus the numbers after '-', reduced into [int]; a pair
    with another operator adds nothing.  Hence the order of the pairs
    does not matter: two sentences with the same first number whose pairs
    are a rearrangement of each other evaluate to the same value. *)
Theorem interpret_order_insensitive num0 op0 expr1 expr2 n0 items1 items2 :
  sentence (list_ascii_of_string expr1) n0 items1 ->
  sentence (list_ascii_of_string expr2) n0 items2 ->
  items1 ≡ₚ items2 ->
  interpret <$> parse num0 op0 expr1 =
    Some (Int.wrap (n0 + signed_sum items1)) /\
  interpret <$> parse num0 op0 expr1 = interpret <$> parse num0 op0 expr2.
Proof.
  intros H1 H2 Hperm.
  rewrite (sentence_value num0 op0 expr1 n0 items1 H1).
  rewrite (sentence_value num0 op0 expr2 n0 items2 H2).
  by rewrite (signed_sum_perm items1 items2 Hperm).
Qed.

Lemma interpret_order_insensitive_witness :
  sentence (list_ascii_of_string "5 + 3 - 2") 5
    [("+"%char, 3); ("-"%char, 2)] /\
  sentence (list_ascii_of_string "5 - 2 + 3") 5
    [("-"%char, 2); ("+"%char, 3)] /\
  [("+"%char, 3); ("-"%char, 2)] ≡ₚ [("-"%char, 2); ("+"%char, 3)] /\
  interpret <$> parse 0 "a" "5 + 3 - 2" =
    Some (Int.wrap (5 + signed_sum [("+"%char, 3); ("-"%char, 2)])) /\
  interpret <$> parse 0 "a" "5 + 3 - 2" =
    interpret <$> parse 0 "a" "5 - 2 + 3".
Proof.
  assert (Hp : [("+"%char, 3); ("-"%char, 2)] ≡ₚ
               [("-"%char, 2); ("+"%char, 3)]) by apply perm_swap.
  split; [exact sentence_5_plus_3_minus_2 |].
  split; [exact sentence_5_minus_2_plus_3 |].
  split; [exact Hp |].
  exact (interpret_order_insensitive 0 "a" "5 + 3 - 2" "5 - 2 + 3" 5 _ _
           sentence_5_plus_3_minus_2 sentence_5_minus_2_plus_3 Hp).
Defined.

(** ** Depth of evaluation *)

(** X9. For a well-formed input with k operators the tree has depth
    k+1: evaluating it nests exactly k+1 calls of [interpret], so a bound
    of k+1 on the nesting yields the value and a bound of k does not. *)
Theorem parse_depth num0 op0 expr n0 items :
  well_formed (list_ascii_of_string expr) n0 items ->
  exists t,
    parse num0 op0 expr = Some t /\
    depth t = S (length items) /\
    interpret_within (S (length items)) t = Some (interpret t) /\
    interpret_within (length items) t = None.
Proof.
  intros [Hs Hsigns]. exists (left_tree n0 items).
  rewrite (parse_sentence num0 op0 expr n0 items Hs).
  destruct (shape_fold items Hsigns (NumberExpression n0))
    as (_ & _ & H3 & _).
  simpl in H3. fold (left_tree n0 items) in H3.
  repeat split; [done | |].
  - apply interpret_within_enough. lia.
  - apply interpret_within_short. lia.
Qed.

Lemma parse_depth_witness :
  well_formed (list_ascii_of_string "5 + 3 - 2") 5
    [("+"%char, 3); ("-"%char, 2)] /\
  exists t,
    parse 0 "a" "5 + 3 - 2" = Some t /\
    depth t = 3%nat /\
    interpret_within 3 t = Some (interpret t) /\
    interpret_within 2 t = None.
Proof.
  assert (H : well_formed (list_ascii_of_string "5 + 3 - 2") 5
                [("+"%char, 3); ("-"%char, 2)]).
  { split; [exact sentence_5_plus_3_minus_2 |].
    constructor; [by left |]. constructor; [by right |]. constructor. }
  split; [exact H |].
  exact (parse_depth 0 "a" "5 + 3 - 2" 5 _ H).
Defined.

(** ** One more pair *)

(** X10. Parsing and evaluation go from left to right one pair at a
    time: when a sentence is extended by a pair at its end, the tree of
    the shorter sentence becomes the left operand of the new root (or
    stays the whole tree, for an operator other than '+' and '-'), and
    the value is the value of the shorter sentence with the pair applied
    to it in [int] arithmetic. *)
Theorem parse_extends num0 op0 expr expr' n0 items c v :
  sentence (list_ascii_of_string expr) n0 items ->
  sentence (list_ascii_of_string expr') n0 (items ++ [(c, v)]) ->
  exists t,
    parse num0 op0 expr = Some t /\
    parse num0 op0 expr' = Some (attach t (c, v)) /\
    interpret (attach t (c, v)) = apply_int (interpret t) (c, v).
Proof.
  intros H1 H2. exists (left_tree n0 items).
  rewrite (parse_sentence num0 op0 expr n0 items H1).
  rewrite (parse_sentence num0 op0 expr' n0 _ H2), left_tree_snoc.
  repeat split. apply (interpret_fold [(c, v)]).
Qed.

Lemma parse_extends_witness :
  sentence (list_ascii_of_string "7") 7 [] /\
  sentence (list_ascii_of_string "7 -9") 7 ([] ++ [("-"%char, 9)]) /\
  exists t,
    parse 0 "a" "7" = Some t /\
    parse 0 "a" "7 -9" = Some (attach t ("-"%char, 9)) /\
    interpret (attach t ("-"%char, 9)) = apply_int (interpret t) ("-"%char, 9).
Proof.
  assert (H1 : sentence (list_ascii_of_string "7") 7 []).
  { exists []. split; [constructor |].
    apply (phrase_intro [] [] ["7"%char] 7 []); [spaces | literal |].
    constructor. }
  assert (H2 : sentence (list_ascii_of_string "7 -9") 7
                 ([] ++ [("-"%char, 9)])).
  { exists []. split; [constructor |].
    apply (phrase_intro [] [] ["7"%char] 7 (list_ascii_of_string " -9"));
      [spaces | literal |].
    apply (tail_item [] [" "%char] "-" [] ["9"%char] 9 []);
      [spaces | done | done | spaces | literal |].
    constructor. }
  split; [exact H1 |]. split; [exact H2 |].
  exact (parse_extends 0 "a" "7" "7 -9" 7 [] "-" 9 H1 H2).
Defined.
